(** * Music-Library: the participants / scores demo of [src/main.cpp]

    The program keeps three standard containers
    - [participants : std::vector<std::string>]   (registration log),
    - [uniqueNames  : std::set<std::string>]      (unique-name set),
    - [scores       : std::map<std::string,int>]  (score mapping),
    fills them in one pass over [incomingData] and prints three views of
    them on [std::cout].

    Embedding.  A [std::string] is a Rocq [string] (a sequence of 8-bit
    characters).  The ordered containers are modelled by the sequence an
    in-order traversal of the tree yields, together with the operations the
    program calls on them, written with [std::less<std::string>] only, as
    the library does.  [std::cout] is the string of bytes written so far.
    An [int] is a [Z]; the program never computes with a score, it only
    stores and prints it, so no wrap-around occurs. *)

From Stdlib Require Import List String Ascii ZArith NArith Lia Bool.
From Stdlib Require Import Permutation DecimalString DecimalPos DecimalZ.
Import ListNotations.

Local Open Scope string_scope.
Local Open Scope Z_scope.

(* ===================================================================== *)
(** ** [std::string] and [operator<] *)
(* ===================================================================== *)

Module StdString.

(** [operator<] on [std::string]: lexicographic comparison of the
    characters read as unsigned bytes, a proper prefix being smaller. *)
Definition less (a b : string) : bool := String.ltb a b.

(** Two keys are equivalent for an ordered container when neither is
    less than the other. *)
Definition equiv (a b : string) : bool := negb (less a b) && negb (less b a).

(** The new-line character written for ["\n"] and by [std::endl]. *)
Definition nl : string := String "010"%char EmptyString.

(** [operator<<(std::ostream&, int)]: decimal digits, a leading [-] for
    negative values, no padding and no grouping (the "C" locale). *)
Definition of_int (n : Z) : string := NilZero.string_of_int (Z.to_int n).

End StdString.

(* ===================================================================== *)
(** ** [std::set<std::string>] *)
(* ===================================================================== *)

Module StdSet.

(** The elements in iteration order ([begin()] to [end()]). *)
Definition t := list string.

Definition empty : t := [].

(** [s.insert(x)]: walk to the first element not less than [x]; if it
    is equivalent to [x] the set is left as it is, otherwise [x] is
    linked in before it. *)
Fixpoint insert (x : string) (s : t) : t :=
  match s with
  | [] => [x]
  | y :: r =>
      if StdString.less x y then x :: y :: r
      else if StdString.less y x then y :: insert x r
      else y :: r
  end.

(** [s.count(x) != 0]. *)
Fixpoint mem (x : string) (s : t) : bool :=
  match s with
  | [] => false
  | y :: r => StdString.equiv x y || mem x r
  end.

Definition size (s : t) : nat := List.length s.

(** The container invariant: strictly increasing for [operator<]. *)
Fixpoint ordered (s : t) : bool :=
  match s with
  | [] => true
  | x :: r =>
      match r with
      | [] => true
      | y :: _ => StdString.less x y && ordered r
      end
  end.

End StdSet.

(* ===================================================================== *)
(** ** [std::map<std::string,int>] *)
(* ===================================================================== *)

Module StdMap.

(** The [(key, value)] pairs in iteration order. *)
Definition t := list (string * Z).

Definition empty : t := [].

(** [m[k]], first half: [operator[]] looks [k] up and, when no
    equivalent key exists, links in a node [(k, int())], that is
    [(k, 0)].  The reference it returns designates the node of key [k]. *)
Fixpoint subscript (k : string) (m : t) : t :=
  match m with
  | [] => [(k, 0)]
  | (k', v') :: r =>
      if StdString.less k k' then (k, 0) :: (k', v') :: r
      else if StdString.less k' k then (k', v') :: subscript k r
      else (k', v') :: r
  end.

(** Assignment through the reference to the node of key [k]. *)
Fixpoint store (k : string) (v : Z) (m : t) : t :=
  match m with
  | [] => []
  | (k', v') :: r =>
      if StdString.equiv k k' then (k', v) :: r
      else (k', v') :: store k v r
  end.

(** The statement [m[k] = v;]. *)
Definition assign (k : string) (v : Z) (m : t) : t :=
  store k v (subscript k m).

(** [m.find(k)], as the mapped value when there is one. *)
Fixpoint find (k : string) (m : t) : option Z :=
  match m with
  | [] => None
  | (k', v') :: r => if StdString.equiv k k' then Some v' else find k r
  end.

Definition keys (m : t) : list string := map fst m.

Definition size (m : t) : nat := List.length m.

End StdMap.

(* ===================================================================== *)
(** ** The program *)
(* ===================================================================== *)

(** The three local containers of [main]. *)
Record State := mkState {
  participants : list string;
  uniqueNames  : StdSet.t;
  scores       : StdMap.t
}.

(** The containers as declared: all empty. *)
Definition initial : State :=
  {| participants := []; uniqueNames := StdSet.empty; scores := StdMap.empty |}.

(** The hard-coded [incomingData]. *)
Definition incomingData : list (string * Z) :=
  [("Alice", 95); ("Bob", 80); ("Alice", 97); ("Charlie", 100); ("Diana", 75)].

(** One iteration of the first [for] loop. *)
Definition ingest_step (st : State) (entry : string * Z) : State :=
  let name := fst entry in
  let score := snd entry in
  {| participants := participants st ++ [name];          (* push_back *)
     uniqueNames  := StdSet.insert name (uniqueNames st);
     scores       := StdMap.assign name score (scores st) |}.

(** The first [for] loop, started in state [st]. *)
Definition ingest_from (st : State) (data : list (string * Z)) : State :=
  fold_left ingest_step data st.

Definition ingest (data : list (string * Z)) : State := ingest_from initial data.

(** [std::cout << s]. *)
Definition put (cout : string) (s : string) : string := cout ++ s.

(** The two loops printing a sequence of names: [cout << *it << " "]. *)
Definition print_names (cout : string) (names : list string) : string :=
  fold_left (fun out name => put (put out name) " ") names cout.

(** The loop over the map:
    [cout << it->first << " : " << it->second << std::endl]. *)
Definition print_scores (cout : string) (m : StdMap.t) : string :=
  fold_left
    (fun out kv =>
       put (put (put (put out (fst kv)) " : ") (StdString.of_int (snd kv)))
           StdString.nl)
    m cout.

(** The report phase, from the first header to the end of the last loop. *)
Definition report (cout : string) (st : State) : string :=
  let cout := put cout ("All participants (in order of registration):" ++ StdString.nl) in
  let cout := print_names cout (participants st) in
  let cout := put cout (StdString.nl ++ StdString.nl) in
  let cout := put cout ("Unique participants:" ++ StdString.nl) in
  let cout := print_names cout (uniqueNames st) in
  let cout := put cout (StdString.nl ++ StdString.nl) in
  let cout := put cout ("Final scores:" ++ StdString.nl) in
  print_scores cout (scores st).

(** What a run leaves behind: the bytes on standard output and the value
    returned by [main]. *)
Record Outcome := mkOutcome {
  stdout : string;
  exit_code : Z
}.

(** The body of [main] for a given [incomingData]. *)
Definition run (data : list (string * Z)) : Outcome :=
  let st := ingest data in
  let cout := report EmptyString st in
  {| stdout := cout; exit_code := 0 |}.

(** What the process could observe from outside: its arguments, its
    environment and its standard input.  [int main()] takes no parameter
    and the body reads none of them. *)
Record World := mkWorld {
  argv : list string;
  environ : list (string * string);
  stdin : string
}.

Definition main (w : World) : Outcome := run incomingData.

(* ===================================================================== *)
(** ** Vocabulary of the specification *)
(* ===================================================================== *)

(** The number of distinct names in a sequence of names. *)
Definition distinct_count (names : list string) : nat :=
  List.length (nodup string_dec names).

(** A line of names, each one followed by one space. *)
Fixpoint names_line (names : list string) : string :=
  match names with
  | [] => EmptyString
  | n :: r => n ++ " " ++ names_line r
  end.

(** The text of one score entry, without its line end. *)
Definition score_text (kv : string * Z) : string :=
  fst kv ++ " : " ++ StdString.of_int (snd kv).

(** The score entries, each one ended by a new-line. *)
Fixpoint score_lines (m : list (string * Z)) : string :=
  match m with
  | [] => EmptyString
  | kv :: r => score_text kv ++ StdString.nl ++ score_lines r
  end.

Definition header_all : string := "All participants (in order of registration):".
Definition header_unique : string := "Unique participants:".
Definition header_scores : string := "Final scores:".

(** Split a text at every new-line character; the text after the last
    new-line (possibly empty) is the last element. *)
Fixpoint lines_aux (cur : string) (s : string) : list string :=
  match s with
  | EmptyString => [cur]
  | String c r =>
      if Ascii.eqb c "010"%char
      then cur :: lines_aux EmptyString r
      else lines_aux (cur ++ String c EmptyString) r
  end.

Definition lines (s : string) : list string := lines_aux EmptyString s.

(** Does the character occur in the string? *)
Fixpoint has_char (c : ascii) (s : string) : bool :=
  match s with
  | EmptyString => false
  | String d r => Ascii.eqb c d || has_char c r
  end.

(** A string without a new-line character. *)
Definition one_line (s : string) : bool := negb (has_char "010"%char s).

(* ===================================================================== *)
(** ** [operator<] is a strict total order *)
(* ===================================================================== *)

Section StringOrder.

Lemma ascii_compare_refl (a : ascii) : Ascii.compare a a = Eq.
Proof. unfold Ascii.compare. apply N.compare_refl. Qed.

Lemma ascii_compare_lt_trans (a b c : ascii) :
  Ascii.compare a b = Lt -> Ascii.compare b c = Lt -> Ascii.compare a c = Lt.
Proof.
  unfold Ascii.compare. rewrite !N.compare_lt_iff. apply N.lt_trans.
Qed.

Lemma string_compare_refl (s : string) : String.compare s s = Eq.
Proof.
  induction s as [|a s IH]; simpl; [reflexivity|].
  now rewrite ascii_compare_refl.
Qed.

Lemma string_compare_lt_trans :
  forall s1 s2 s3 : string,
    String.compare s1 s2 = Lt -> String.compare s2 s3 = Lt ->
    String.compare s1 s3 = Lt.
Proof.
  induction s1 as [|a s1 IH]; intros [|b s2] [|c s3]; simpl;
    try discriminate; auto.
  destruct (Ascii.compare a b) eqn:Hab; try discriminate;
    destruct (Ascii.compare b c) eqn:Hbc; try discriminate; intros H1 H2.
  - apply Ascii.compare_eq_iff in Hab, Hbc. subst.
    rewrite ascii_compare_refl. eauto.
  - apply Ascii.compare_eq_iff in Hab. subst. now rewrite Hbc.
  - apply Ascii.compare_eq_iff in Hbc. subst. now rewrite Hab.
  - now rewrite (ascii_compare_lt_trans a b c).
Qed.

Lemma less_irrefl (s : string) : StdString.less s s = false.
Proof.
  unfold StdString.less, String.ltb. now rewrite string_compare_refl.
Qed.

Lemma less_trans (a b c : string) :
  StdString.less a b = true -> StdString.less b c = true ->
  StdString.less a c = true.
Proof.
  unfold StdString.less, String.ltb.
  destruct (String.compare a b) eqn:Hab; try discriminate.
  destruct (String.compare b c) eqn:Hbc; try discriminate.
  now rewrite (string_compare_lt_trans a b c).
Qed.

Lemma less_asym (a b : string) :
  StdString.less a b = true -> StdString.less b a = false.
Proof.
  unfold StdString.less, String.ltb.
  rewrite (String.compare_antisym a b).
  now destruct (String.compare b a).
Qed.

(** Keys that are equivalent for the container are the same string. *)
Lemma equiv_eq (a b : string) : StdString.equiv a b = true <-> a = b.
Proof.
  unfold StdString.equiv, StdString.less, String.ltb. split.
  - rewrite (String.compare_antisym b a).
    destruct (String.compare a b) eqn:Hab; simpl; try discriminate.
    intros _. now apply String.compare_eq_iff.
  - intros ->. now rewrite string_compare_refl.
Qed.

Lemma equiv_refl (a : string) : StdString.equiv a a = true.
Proof. now apply equiv_eq. Qed.

Lemma equiv_neq (a b : string) : StdString.equiv a b = false <-> a <> b.
Proof.
  rewrite <- equiv_eq. destruct (StdString.equiv a b); split; congruence.
Qed.

Lemma less_neq (a b : string) : StdString.less a b = true -> a <> b.
Proof. intros H ->. rewrite less_irrefl in H. discriminate. Qed.

(** Neither less nor greater: the same string. *)
Lemma not_less_eq (a b : string) :
  StdString.less a b = false -> StdString.less b a = false -> a = b.
Proof.
  intros H1 H2. apply equiv_eq. unfold StdString.equiv. now rewrite H1, H2.
Qed.

End StringOrder.

(* ===================================================================== *)
(** ** Facts about [std::set] *)
(* ===================================================================== *)

Section SetFacts.

Lemma ordered_tail (x : string) (s : StdSet.t) :
  StdSet.ordered (x :: s) = true -> StdSet.ordered s = true.
Proof.
  destruct s as [|y r]; [reflexivity|]. simpl.
  intros H. apply andb_true_iff in H. tauto.
Qed.

(** In an ordered sequence the head is less than every later element. *)
Lemma ordered_head_less (x : string) (s : StdSet.t) :
  StdSet.ordered (x :: s) = true ->
  forall y, In y s -> StdString.less x y = true.
Proof.
  revert x. induction s as [|z r IH]; intros x Hord y Hin; [easy|].
  change (StdString.less x z && StdSet.ordered (z :: r) = true) in Hord.
  apply andb_true_iff in Hord. destruct Hord as [Hxz Hzr].
  destruct Hin as [->|Hin]; [assumption|].
  apply less_trans with z; [assumption|]. now apply IH.
Qed.

Lemma ordered_NoDup (s : StdSet.t) : StdSet.ordered s = true -> NoDup s.
Proof.
  induction s as [|x r IH]; intros Hord; constructor.
  - intros Hin. apply (ordered_head_less x r Hord) in Hin.
    rewrite less_irrefl in Hin. discriminate.
  - apply IH. now apply ordered_tail with x.
Qed.

Lemma mem_In (x : string) (s : StdSet.t) : StdSet.mem x s = true <-> In x s.
Proof.
  induction s as [|y r IH]; simpl; [split; [discriminate|tauto]|].
  rewrite orb_true_iff, IH, equiv_eq. split; intros [H|H]; auto.
Qed.

Lemma insert_In (x y : string) (s : StdSet.t) :
  In y (StdSet.insert x s) <-> y = x \/ In y s.
Proof.
  induction s as [|z r IH]; simpl.
  - split; intros [H|H]; auto.
  - destruct (StdString.less x z) eqn:Hxz; simpl.
    + split; intros [H|H]; auto.
    + destruct (StdString.less z x) eqn:Hzx; simpl.
      * rewrite IH. tauto.
      * assert (x = z) by now apply not_less_eq. subst.
        split; [tauto|]. intros [H|H]; auto.
Qed.

Lemma insert_ordered (x : string) (s : StdSet.t) :
  StdSet.ordered s = true -> StdSet.ordered (StdSet.insert x s) = true.
Proof.
  induction s as [|z r IH]; intros Hord; [reflexivity|].
  cbn [StdSet.insert].
  destruct (StdString.less x z) eqn:Hxz.
  - change (StdString.less x z && StdSet.ordered (z :: r) = true).
    now rewrite Hxz, Hord.
  - destruct (StdString.less z x) eqn:Hzx; [|assumption].
    specialize (IH (ordered_tail z r Hord)).
    destruct r as [|w r'].
    + simpl. now rewrite Hzx.
    + change (StdString.less z w && StdSet.ordered (w :: r') = true) in Hord.
      apply andb_true_iff in Hord. destruct Hord as [Hzw Hwr].
      cbn [StdSet.insert] in *.
      destruct (StdString.less x w) eqn:Hxw.
      * change (StdString.less z x && StdSet.ordered (x :: w :: r') = true).
        now rewrite Hzx, IH.
      * destruct (StdString.less w x) eqn:Hwx.
        -- change (StdString.less z w
                   && StdSet.ordered (w :: StdSet.insert x r') = true).
           now rewrite Hzw, IH.
        -- change (StdString.less z w && StdSet.ordered (w :: r') = true).
           now rewrite Hzw, Hwr.
Qed.

(** Inserting an element that is there changes nothing. *)
Lemma insert_present (x : string) (s : StdSet.t) :
  StdSet.ordered s = true -> In x s -> StdSet.insert x s = s.
Proof.
  induction s as [|z r IH]; intros Hord Hin; [easy|].
  cbn [StdSet.insert].
  destruct Hin as [->|Hin].
  - now rewrite less_irrefl.
  - pose proof (ordered_head_less z r Hord x Hin) as Hzx.
    rewrite (less_asym z x Hzx), Hzx. f_equal.
    apply IH; [now apply ordered_tail with z | assumption].
Qed.

(** Inserting an element that is not there adds exactly one. *)
Lemma insert_absent_size (x : string) (s : StdSet.t) :
  ~ In x s -> StdSet.size (StdSet.insert x s) = S (StdSet.size s).
Proof.
  unfold StdSet.size.
  induction s as [|z r IH]; intros Hnin; [reflexivity|].
  cbn [StdSet.insert].
  destruct (StdString.less x z) eqn:Hxz; [reflexivity|].
  destruct (StdString.less z x) eqn:Hzx.
  - simpl. f_equal. apply IH. intros H. apply Hnin. now right.
  - exfalso. apply Hnin. left. symmetry. now apply not_less_eq.
Qed.

End SetFacts.

(* ===================================================================== *)
(** ** Facts about [std::map] *)
(* ===================================================================== *)

Section MapFacts.

(** [m[k] = v] as one pass over the sequence. *)
Lemma assign_nil (k : string) (v : Z) : StdMap.assign k v [] = [(k, v)].
Proof. unfold StdMap.assign. simpl. now rewrite equiv_refl. Qed.

Lemma assign_cons (k : string) (v : Z) (k' : string) (v' : Z) (r : StdMap.t) :
  StdMap.assign k v ((k', v') :: r) =
    if StdString.less k k' then (k, v) :: (k', v') :: r
    else if StdString.less k' k then (k', v') :: StdMap.assign k v r
    else (k', v) :: r.
Proof.
  unfold StdMap.assign. cbn [StdMap.subscript].
  destruct (StdString.less k k') eqn:Hkk'.
  - cbn [StdMap.store]. now rewrite equiv_refl.
  - destruct (StdString.less k' k) eqn:Hk'k; cbn [StdMap.store];
      unfold StdString.equiv; now rewrite Hkk', Hk'k.
Qed.

(** The keys of the map evolve as a set of names does. *)
Lemma assign_keys (k : string) (v : Z) (m : StdMap.t) :
  StdMap.keys (StdMap.assign k v m) = StdSet.insert k (StdMap.keys m).
Proof.
  induction m as [|[k' v'] r IH].
  - now rewrite assign_nil.
  - rewrite assign_cons. unfold StdMap.keys in *. simpl.
    destruct (StdString.less k k'); [reflexivity|].
    destruct (StdString.less k' k); simpl; [now rewrite IH | reflexivity].
Qed.

Lemma find_assign_same (k : string) (v : Z) (m : StdMap.t) :
  StdMap.find k (StdMap.assign k v m) = Some v.
Proof.
  induction m as [|[k' v'] r IH].
  - rewrite assign_nil. simpl. now rewrite equiv_refl.
  - rewrite assign_cons.
    destruct (StdString.less k k') eqn:Hkk'.
    + simpl. now rewrite equiv_refl.
    + destruct (StdString.less k' k) eqn:Hk'k; simpl;
        unfold StdString.equiv at 1; rewrite Hkk', Hk'k; simpl; auto.
Qed.

Lemma find_assign_other (n k : string) (v : Z) (m : StdMap.t) :
  n <> k -> StdMap.find n (StdMap.assign k v m) = StdMap.find n m.
Proof.
  intros Hne. apply equiv_neq in Hne.
  induction m as [|[k' v'] r IH].
  - rewrite assign_nil. simpl. now rewrite Hne.
  - rewrite assign_cons.
    destruct (StdString.less k k') eqn:Hkk'.
    + cbn [StdMap.find]. now rewrite Hne.
    + destruct (StdString.less k' k) eqn:Hk'k; cbn [StdMap.find].
      * now rewrite IH.
      * assert (k = k') by now apply not_less_eq. subst k'.
        now rewrite Hne.
Qed.

Lemma find_None (n : string) (m : StdMap.t) :
  StdMap.find n m = None <-> ~ In n (StdMap.keys m).
Proof.
  unfold StdMap.keys.
  induction m as [|[k' v'] r IH]; simpl; [tauto|].
  destruct (StdString.equiv n k') eqn:E.
  - apply equiv_eq in E. subst. split; [discriminate|]. intros H.
    exfalso. apply H. now left.
  - apply equiv_neq in E. rewrite IH. split.
    + intros H [H'|H']; [congruence | tauto].
    + intros H H'. apply H. now right.
Qed.

End MapFacts.

(* ===================================================================== *)
(** ** The ingest loop *)
(* ===================================================================== *)

Section IngestFacts.

Lemma ingest_from_cons (st : State) (e : string * Z) (l : list (string * Z)) :
  ingest_from st (e :: l) = ingest_from (ingest_step st e) l.
Proof. reflexivity. Qed.

(** Running the loop over [l1 ++ l2] is running it over [l1] and going
    on over [l2] from the state reached. *)
Lemma ingest_from_app (st : State) (l1 l2 : list (string * Z)) :
  ingest_from st (l1 ++ l2)%list = ingest_from (ingest_from st l1) l2.
Proof. unfold ingest_from. apply fold_left_app. Qed.

Lemma participants_ingest_from (l : list (string * Z)) :
  forall st,
    participants (ingest_from st l) = (participants st ++ map fst l)%list.
Proof.
  induction l as [|e l IH]; intros st.
  - simpl. now rewrite app_nil_r.
  - rewrite ingest_from_cons, IH. simpl. now rewrite <- app_assoc.
Qed.

Lemma keys_ingest_from (l : list (string * Z)) :
  forall st,
    StdMap.keys (scores st) = uniqueNames st ->
    StdMap.keys (scores (ingest_from st l)) = uniqueNames (ingest_from st l).
Proof.
  induction l as [|e l IH]; intros st H; [assumption|].
  rewrite ingest_from_cons. apply IH. simpl.
  now rewrite assign_keys, H.
Qed.

Lemma ordered_ingest_from (l : list (string * Z)) :
  forall st,
    StdSet.ordered (uniqueNames st) = true ->
    StdSet.ordered (uniqueNames (ingest_from st l)) = true.
Proof.
  induction l as [|e l IH]; intros st H; [assumption|].
  rewrite ingest_from_cons. apply IH. simpl. now apply insert_ordered.
Qed.

Lemma unique_ingest_from (n : string) (l : list (string * Z)) :
  forall st,
    In n (uniqueNames (ingest_from st l)) <->
    In n (uniqueNames st) \/ In n (map fst l).
Proof.
  induction l as [|e l IH]; intros st.
  - simpl. tauto.
  - rewrite ingest_from_cons, IH. simpl. rewrite insert_In.
    split; intros H; intuition auto.
Qed.

(** Entries for other names leave the score of [n] alone. *)
Lemma find_ingest_from_absent (n : string) (l : list (string * Z)) :
  forall st,
    ~ In n (map fst l) ->
    StdMap.find n (scores (ingest_from st l)) = StdMap.find n (scores st).
Proof.
  induction l as [|e l IH]; intros st Hnin; [reflexivity|].
  rewrite ingest_from_cons, IH.
  - simpl. apply find_assign_other. intros ->. apply Hnin. now left.
  - intros H. apply Hnin. now right.
Qed.

Lemma ingest_keys (l : list (string * Z)) :
  StdMap.keys (scores (ingest l)) = uniqueNames (ingest l).
Proof. unfold ingest. now apply keys_ingest_from. Qed.

Lemma ingest_ordered (l : list (string * Z)) :
  StdSet.ordered (uniqueNames (ingest l)) = true.
Proof. unfold ingest. now apply ordered_ingest_from. Qed.

Lemma ingest_unique_In (n : string) (l : list (string * Z)) :
  In n (uniqueNames (ingest l)) <-> In n (map fst l).
Proof. unfold ingest. rewrite unique_ingest_from. simpl. tauto. Qed.

(** The set holds as many elements as there are distinct names. *)
Lemma ingest_unique_size (l : list (string * Z)) :
  StdSet.size (uniqueNames (ingest l)) = distinct_count (map fst l).
Proof.
  unfold StdSet.size, distinct_count.
  apply Permutation_length, NoDup_Permutation.
  - apply ordered_NoDup, ingest_ordered.
  - apply NoDup_nodup.
  - intros n. rewrite ingest_unique_In, nodup_In. tauto.
Qed.

(** The score found for a name is the one of its last entry. *)
Lemma ingest_find_last (l1 l2 : list (string * Z)) (n : string) (s : Z) :
  ~ In n (map fst l2) ->
  StdMap.find n (scores (ingest (l1 ++ (n, s) :: l2)%list)) = Some s.
Proof.
  intros Hnin. unfold ingest.
  rewrite ingest_from_app, ingest_from_cons.
  rewrite find_ingest_from_absent by assumption.
  simpl. apply find_assign_same.
Qed.

End IngestFacts.

(* ===================================================================== *)
(** ** The report *)
(* ===================================================================== *)

Section ReportFacts.

Lemma append_nil_r (s : string) : s ++ "" = s.
Proof. induction s as [|c s IH]; simpl; congruence. Qed.

Lemma append_assoc (a b c : string) : (a ++ b) ++ c = a ++ (b ++ c).
Proof. induction a as [|x a IH]; simpl; congruence. Qed.

Lemma print_names_eq (names : list string) :
  forall cout, print_names cout names = cout ++ names_line names.
Proof.
  unfold print_names, put.
  induction names as [|n r IH]; intros cout; simpl.
  - now rewrite append_nil_r.
  - rewrite IH. now rewrite !append_assoc.
Qed.

Lemma print_scores_eq (m : StdMap.t) :
  forall cout, print_scores cout m = cout ++ score_lines m.
Proof.
  unfold print_scores, put.
  induction m as [|kv r IH]; intros cout; simpl.
  - now rewrite append_nil_r.
  - rewrite IH. unfold score_text. now rewrite !append_assoc.
Qed.

(** The bytes the report adds to the stream. *)
Lemma report_eq (cout : string) (st : State) :
  report cout st =
    cout ++ header_all ++ StdString.nl
         ++ names_line (participants st) ++ StdString.nl ++ StdString.nl
         ++ header_unique ++ StdString.nl
         ++ names_line (uniqueNames st) ++ StdString.nl ++ StdString.nl
         ++ header_scores ++ StdString.nl
         ++ score_lines (scores st).
Proof.
  unfold report. rewrite print_scores_eq, !print_names_eq. unfold put.
  now rewrite !append_assoc.
Qed.

End ReportFacts.

(* ===================================================================== *)
(** ** The lines of the output *)
(* ===================================================================== *)

Section LineFacts.

Lemma has_char_app (c : ascii) (a b : string) :
  has_char c (a ++ b) =
  has_char c a || has_char c b.
Proof.
  induction a as [|x a IH]; simpl; [reflexivity|].
  now rewrite IH, orb_assoc.
Qed.

Lemma one_line_app (a b : string) :
  one_line (a ++ b) = one_line a && one_line b.
Proof. unfold one_line. now rewrite has_char_app, negb_orb. Qed.

Lemma one_line_cons (c : ascii) (s : string) :
  one_line (String c s) = true ->
  Ascii.eqb c "010"%char = false /\ one_line s = true.
Proof.
  unfold one_line. simpl. rewrite negb_orb, andb_true_iff.
  rewrite (Ascii.eqb_sym c). intros [H1 H2]. split; [|assumption].
  now apply negb_true_iff.
Qed.

(** A text without a new-line is one line. *)
Lemma lines_aux_one_line (s : string) :
  one_line s = true ->
  forall cur, lines_aux cur s = [cur ++ s].
Proof.
  induction s as [|c s IH]; intros H cur; simpl.
  - now rewrite append_nil_r.
  - apply one_line_cons in H. destruct H as [Hc Hs].
    rewrite Hc, (IH Hs), append_assoc. reflexivity.
Qed.

Lemma lines_aux_nl (cur t : string) :
  lines_aux cur (StdString.nl ++ t) =
  cur :: lines_aux EmptyString t.
Proof. reflexivity. Qed.

(** A text without a new-line, then a new-line: the first line. *)
Lemma lines_aux_line (s : string) :
  one_line s = true ->
  forall cur t,
    lines_aux cur (s ++ StdString.nl ++ t) =
    (cur ++ s) :: lines_aux EmptyString t.
Proof.
  induction s as [|c s IH]; intros H cur t.
  - now rewrite append_nil_r.
  - apply one_line_cons in H. destruct H as [Hc Hs].
    cbn [append lines_aux]. rewrite Hc, (IH Hs), append_assoc.
    reflexivity.
Qed.

Lemma uint_one_line (d : Decimal.uint) :
  one_line (NilEmpty.string_of_uint d) = true.
Proof. induction d; simpl; auto. Qed.

Lemma nilzero_uint_one_line (d : Decimal.uint) :
  one_line (NilZero.string_of_uint d) = true.
Proof.
  destruct d; [reflexivity | exact (uint_one_line _) ..].
Qed.

(** A printed [int] has digits and at most a sign: no new-line. *)
Lemma of_int_one_line (n : Z) : one_line (StdString.of_int n) = true.
Proof.
  unfold StdString.of_int, NilZero.string_of_int.
  destruct (Z.to_int n) as [d|d].
  - apply nilzero_uint_one_line.
  - change (one_line (NilZero.string_of_uint d) = true).
    apply nilzero_uint_one_line.
Qed.

Lemma names_line_one_line (names : list string) :
  forallb one_line names = true -> one_line (names_line names) = true.
Proof.
  induction names as [|n r IH]; [reflexivity|].
  cbn [forallb names_line].
  rewrite andb_true_iff. intros [Hn Hr].
  now rewrite !one_line_app, Hn, (IH Hr).
Qed.

Lemma score_text_one_line (kv : string * Z) :
  one_line (fst kv) = true -> one_line (score_text kv) = true.
Proof.
  intros H. unfold score_text.
  now rewrite !one_line_app, H, of_int_one_line.
Qed.

Lemma lines_score_lines (m : StdMap.t) :
  forallb one_line (StdMap.keys m) = true ->
  lines_aux EmptyString (score_lines m) =
  (map score_text m ++ [EmptyString])%list.
Proof.
  unfold StdMap.keys.
  induction m as [|kv r IH]; [reflexivity|].
  cbn [map forallb score_lines].
  rewrite andb_true_iff. intros [Hk Hr].
  rewrite lines_aux_line by now apply score_text_one_line.
  now rewrite (IH Hr).
Qed.

Lemma forallb_names (data : list (string * Z)) :
  forallb (fun e => one_line (fst e)) data = true ->
  forallb one_line (map fst data) = true.
Proof.
  induction data as [|e r IH]; simpl; [reflexivity|].
  rewrite !andb_true_iff. intros [H1 H2]. auto.
Qed.

(** The lines of a report, for names that hold no new-line. *)
Lemma lines_report (st : State) :
  forallb one_line (participants st) = true ->
  forallb one_line (uniqueNames st) = true ->
  forallb one_line (StdMap.keys (scores st)) = true ->
  lines (report EmptyString st) =
    ([header_all; names_line (participants st); EmptyString;
      header_unique; names_line (uniqueNames st); EmptyString;
      header_scores] ++ map score_text (scores st) ++ [EmptyString])%list.
Proof.
  intros Hp Hu Hs. rewrite report_eq. unfold lines.
  change (EmptyString ++ ?x) with x.
  rewrite (lines_aux_line header_all) by reflexivity.
  rewrite lines_aux_line by now apply names_line_one_line.
  rewrite lines_aux_nl.
  rewrite (lines_aux_line header_unique) by reflexivity.
  rewrite lines_aux_line by now apply names_line_one_line.
  rewrite lines_aux_nl.
  rewrite (lines_aux_line header_scores) by reflexivity.
  rewrite lines_score_lines by assumption.
  reflexivity.
Qed.

End LineFacts.

(* ===================================================================== *)
(** ** The properties of the specification *)
(* ===================================================================== *)

(** C1.  After the loop over the hard-coded [incomingData], the score
    mapping holds exactly Alice:97, Bob:80, Charlie:100, Diana:75, and the
    score found for Alice is 97, the one of her last entry, not 95. *)
Theorem scores_after_ingest :
  scores (ingest incomingData) =
    [("Alice", 97); ("Bob", 80); ("Charlie", 100); ("Diana", 75)]
  /\ StdMap.find "Alice" (scores (ingest incomingData)) = Some 97
  /\ StdMap.find "Alice" (scores (ingest incomingData)) <> Some 95
  /\ StdMap.size (scores (ingest incomingData)) = 4%nat.
Proof.
  assert (H : scores (ingest incomingData) =
              [("Alice", 97); ("Bob", 80); ("Charlie", 100); ("Diana", 75)])
    by (vm_compute; reflexivity).
  rewrite H. repeat split.
  vm_compute. discriminate.
Qed.

(** C2.  For every input and every [k] up to its length, the state [st]
    the loop is in after [k] iterations satisfies: the set holds as many
    names as there are distinct names among the first [k] entries, and
    exactly those names; the keys of the mapping are the elements of the
    set, so both have the same size; every name seen is mapped to the
    score of its last entry among the first [k], no other name is mapped;
    and the log has [k] elements. *)
Theorem ingest_prefix_invariant (data : list (string * Z)) (k : nat) :
  (k <= List.length data)%nat ->
  let seen := firstn k data in
  let st := ingest seen in
  ingest data = ingest_from st (skipn k data)
  /\ StdSet.size (uniqueNames st) = distinct_count (map fst seen)
  /\ NoDup (uniqueNames st)
  /\ (forall n, In n (uniqueNames st) <-> In n (map fst seen))
  /\ StdMap.keys (scores st) = uniqueNames st
  /\ StdMap.size (scores st) = StdSet.size (uniqueNames st)
  /\ (forall before n s after,
         seen = (before ++ (n, s) :: after)%list ->
         ~ In n (map fst after) ->
         StdMap.find n (scores st) = Some s)
  /\ (forall n, ~ In n (map fst seen) -> StdMap.find n (scores st) = None)
  /\ List.length (participants st) = k.
Proof.
  intros Hk seen st. subst st.
  pose proof (ingest_keys seen) as Hkeys.
  repeat split.
  - unfold ingest at 1. rewrite <- (firstn_skipn k data) at 1.
    now rewrite ingest_from_app.
  - apply ingest_unique_size.
  - apply ordered_NoDup, ingest_ordered.
  - now apply ingest_unique_In.
  - now apply ingest_unique_In.
  - assumption.
  - unfold StdMap.size, StdSet.size. rewrite <- Hkeys.
    unfold StdMap.keys. now rewrite length_map.
  - intros before n s after -> Hnin. now apply ingest_find_last.
  - intros n Hnin. apply find_None. rewrite Hkeys.
    now rewrite ingest_unique_In.
  - unfold ingest. rewrite participants_ingest_from. simpl.
    rewrite length_map. subst seen. apply firstn_length_le. assumption.
Qed.

(** The invariant at the third iteration of the run on [incomingData]. *)
Lemma ingest_prefix_invariant_witness :
  (3 <= List.length incomingData)%nat
  /\ StdSet.size (uniqueNames (ingest (firstn 3 incomingData))) = 2%nat
  /\ StdMap.find "Alice" (scores (ingest (firstn 3 incomingData))) = Some 97
  /\ List.length (participants (ingest (firstn 3 incomingData))) = 3%nat.
Proof.
  assert (Hk : (3 <= List.length incomingData)%nat) by (simpl; lia).
  pose proof (ingest_prefix_invariant incomingData 3 Hk) as H.
  cbv zeta in H.
  destruct H as (_ & Hsize & _ & _ & _ & _ & Hlast & _ & Hlen).
  split; [exact Hk|]. split; [exact Hsize|]. split; [|exact Hlen].
  apply (Hlast [("Alice", 95); ("Bob", 80)] "Alice" 97 []).
  - reflexivity.
  - simpl. tauto.
Defined.

(** C3.  After the loop over [incomingData] the registration log is
    Alice, Bob, Alice, Charlie, Diana.  It is append-only: an iteration
    adds its name at the end and touches nothing before it, so for every
    input the log is the sequence of the names of the entries, in input
    order and with their repetitions. *)
Theorem participants_after_ingest :
  participants (ingest incomingData) =
    ["Alice"; "Bob"; "Alice"; "Charlie"; "Diana"]
  /\ (forall st entry,
        participants (ingest_step st entry) =
        (participants st ++ [fst entry])%list)
  /\ (forall data, participants (ingest data) = map fst data).
Proof.
  split; [|split].
  - vm_compute. reflexivity.
  - reflexivity.
  - intros data. unfold ingest. now rewrite participants_ingest_from.
Qed.

(** C4.  After the loop over [incomingData] the unique-name set has the
    four elements Alice, Bob, Charlie, Diana, and iterating it from
    [begin()] to [end()] yields them in this, increasing, order. *)
Theorem uniqueNames_after_ingest :
  uniqueNames (ingest incomingData) = ["Alice"; "Bob"; "Charlie"; "Diana"]
  /\ StdSet.size (uniqueNames (ingest incomingData)) = 4%nat
  /\ StdSet.ordered (uniqueNames (ingest incomingData)) = true
  /\ (forall n,
        In n (uniqueNames (ingest incomingData)) <->
        n = "Alice" \/ n = "Bob" \/ n = "Charlie" \/ n = "Diana").
Proof.
  assert (H : uniqueNames (ingest incomingData) =
              ["Alice"; "Bob"; "Charlie"; "Diana"])
    by (vm_compute; reflexivity).
  rewrite H. repeat split; try (intros; simpl in *; intuition congruence).
Qed.

(** C5.  For every input whose names hold no new-line, the output of the
    run is, line by line: the header of the log, the names of the log in
    insertion order, each followed by a space, on one line, and an empty
    line; the header of the set, the elements of the set likewise, and an
    empty line; the header of the scores and one line [name : score] per
    entry of the mapping.  The set and the keys of the mapping are in
    increasing order. *)
Theorem report_three_sections (data : list (string * Z)) :
  forallb (fun e => one_line (fst e)) data = true ->
  let st := ingest data in
  lines (stdout (run data)) =
    ([header_all; names_line (participants st); EmptyString;
      header_unique; names_line (uniqueNames st); EmptyString;
      header_scores] ++ map score_text (scores st) ++ [EmptyString])%list
  /\ participants st = map fst data
  /\ StdSet.ordered (uniqueNames st) = true
  /\ StdSet.ordered (StdMap.keys (scores st)) = true.
Proof.
  intros Hdata st. subst st.
  apply forallb_names in Hdata.
  assert (Hp : participants (ingest data) = map fst data).
  { unfold ingest. now rewrite participants_ingest_from. }
  assert (Hu : forallb one_line (uniqueNames (ingest data)) = true).
  { apply forallb_forall. intros n Hn. apply ingest_unique_In in Hn.
    revert n Hn. now apply forallb_forall. }
  split; [|split; [exact Hp|split]].
  - change (stdout (run data)) with (report EmptyString (ingest data)).
    apply lines_report.
    + now rewrite Hp.
    + exact Hu.
    + now rewrite ingest_keys.
  - apply ingest_ordered.
  - rewrite ingest_keys. apply ingest_ordered.
Qed.

(** The lines printed for [incomingData]. *)
Lemma report_three_sections_witness :
  forallb (fun e => one_line (fst e)) incomingData = true
  /\ lines (stdout (run incomingData)) =
       ["All participants (in order of registration):";
        "Alice Bob Alice Charlie Diana "; "";
        "Unique participants:";
        "Alice Bob Charlie Diana "; "";
        "Final scores:";
        "Alice : 97"; "Bob : 80"; "Charlie : 100"; "Diana : 75"; ""].
Proof.
  assert (H : forallb (fun e => one_line (fst e)) incomingData = true)
    by reflexivity.
  split; [exact H|].
  exact (proj1 (report_three_sections incomingData H)).
Defined.

(** C6.  Insertion into a set is idempotent: inserting a name the set
    already holds leaves the set as it is. *)
Theorem insert_idempotent (s : StdSet.t) (name : string) :
  StdSet.ordered s = true ->
  StdSet.mem name s = true ->
  StdSet.insert name s = s.
Proof.
  intros Hord Hmem. apply insert_present; [assumption|].
  now apply mem_In.
Qed.

(** Alice registers a second time. *)
Lemma insert_idempotent_witness :
  StdSet.ordered ["Alice"; "Bob"] = true
  /\ StdSet.mem "Alice" ["Alice"; "Bob"] = true
  /\ StdSet.insert "Alice" ["Alice"; "Bob"] = ["Alice"; "Bob"].
Proof.
  split; [reflexivity|]. split; [reflexivity|].
  apply (insert_idempotent ["Alice"; "Bob"] "Alice"); reflexivity.
Defined.

(** C8.  With no entry at all the log, the set and the mapping are empty
    and the report consists of the three headers, with nothing but the
    line ends of their sections below them. *)
Theorem run_empty_input :
  participants (ingest []) = []
  /\ uniqueNames (ingest []) = StdSet.empty
  /\ scores (ingest []) = StdMap.empty
  /\ stdout (run []) =
       header_all ++ StdString.nl ++ StdString.nl ++ StdString.nl
       ++ header_unique ++ StdString.nl ++ StdString.nl ++ StdString.nl
       ++ header_scores ++ StdString.nl
  /\ lines (stdout (run [])) =
       ["All participants (in order of registration):"; ""; "";
        "Unique participants:"; ""; "";
        "Final scores:"; ""].
Proof. repeat split. Qed.

(** C10.  For every input the bytes written are: the first header and a
    new-line; every name of the log followed by one space; two new-lines;
    the second header and a new-line; every element of the set followed by
    one space; two new-lines; the third header and a new-line; and for
    every entry of the mapping its name, [" : "], its score in decimal and
    a new-line.  For [incomingData] both lines of names end with a space. *)
Theorem output_format :
  (forall data,
     stdout (run data) =
       header_all ++ StdString.nl
       ++ names_line (participants (ingest data))
       ++ StdString.nl ++ StdString.nl
       ++ header_unique ++ StdString.nl
       ++ names_line (uniqueNames (ingest data))
       ++ StdString.nl ++ StdString.nl
       ++ header_scores ++ StdString.nl
       ++ score_lines (scores (ingest data)))
  /\ (forall name rest, names_line (name :: rest) = name ++ " " ++ names_line rest)
  /\ (forall name score rest,
        score_lines ((name, score) :: rest) =
        name ++ " : " ++ StdString.of_int score ++ StdString.nl
        ++ score_lines rest)
  /\ (forall w,
        stdout (main w) =
          "All participants (in order of registration):" ++ StdString.nl
          ++ "Alice Bob Alice Charlie Diana " ++ StdString.nl
          ++ StdString.nl
          ++ "Unique participants:" ++ StdString.nl
          ++ "Alice Bob Charlie Diana " ++ StdString.nl
          ++ StdString.nl
          ++ "Final scores:" ++ StdString.nl
          ++ "Alice : 97" ++ StdString.nl
          ++ "Bob : 80" ++ StdString.nl
          ++ "Charlie : 100" ++ StdString.nl
          ++ "Diana : 75" ++ StdString.nl).
Proof.
  split; [|split; [|split]].
  - intros data.
    change (stdout (run data)) with (report EmptyString (ingest data)).
    now rewrite report_eq.
  - reflexivity.
  - intros name score rest. simpl. unfold score_text. simpl.
    now rewrite !append_assoc.
  - intros w. vm_compute. reflexivity.
Qed.

(* ===================================================================== *)
(** ** Canonical forms: a container is determined by what it holds *)
(* ===================================================================== *)

Section Canonical.

(** Two ordered sequences with the same elements are the same sequence. *)
Lemma ordered_ext (s1 : StdSet.t) :
  forall s2 : StdSet.t,
    StdSet.ordered s1 = true -> StdSet.ordered s2 = true ->
    (forall x, In x s1 <-> In x s2) -> s1 = s2.
Proof.
  induction s1 as [|x r1 IH]; intros [|y r2] H1 H2 H.
  - reflexivity.
  - exfalso. apply (proj2 (H y)). now left.
  - exfalso. apply (proj1 (H x)). now left.
  - assert (E : x = y).
    { destruct (proj1 (H x) (or_introl eq_refl)) as [E|Hx]; [now symmetry|].
      destruct (proj2 (H y) (or_introl eq_refl)) as [E|Hy]; [assumption|].
      apply (ordered_head_less y r2 H2) in Hx.
      apply (ordered_head_less x r1 H1) in Hy.
      rewrite (less_asym x y Hy) in Hx. discriminate. }
    subst y. f_equal.
    apply IH; [now apply ordered_tail with x .. |].
    intros z. split; intros Hz.
    + destruct (proj1 (H z) (or_intror Hz)) as [E|Hz']; [|assumption].
      subst z. apply (ordered_head_less x r1 H1) in Hz.
      rewrite less_irrefl in Hz. discriminate.
    + destruct (proj2 (H z) (or_intror Hz)) as [E|Hz']; [|assumption].
      subst z. apply (ordered_head_less x r2 H2) in Hz.
      rewrite less_irrefl in Hz. discriminate.
Qed.

Lemma find_Some_In (k : string) (m : StdMap.t) :
  StdMap.find k m <> None <-> In k (StdMap.keys m).
Proof.
  rewrite find_None. destruct (in_dec string_dec k (StdMap.keys m)); tauto.
Qed.

Lemma find_ext_keys (m1 : StdMap.t) :
  forall m2 : StdMap.t,
    StdMap.keys m1 = StdMap.keys m2 -> NoDup (StdMap.keys m1) ->
    (forall k, StdMap.find k m1 = StdMap.find k m2) -> m1 = m2.
Proof.
  unfold StdMap.keys.
  induction m1 as [|[k1 v1] r1 IH]; intros [|[k2 v2] r2] Hk Hnd H;
    try discriminate; [reflexivity|].
  simpl in Hk. injection Hk as -> Hk. inversion Hnd as [|? ? Hnin Hnd']. subst.
  pose proof (H k2) as Hhead. simpl in Hhead. rewrite equiv_refl in Hhead.
  injection Hhead as ->. f_equal. apply IH; [assumption .. |].
  intros n. destruct (string_dec n k2) as [->|Hne].
  - transitivity (@None Z); [|symmetry]; apply find_None; unfold StdMap.keys;
      [assumption | now rewrite <- Hk].
  - specialize (H n). simpl in H.
    apply equiv_neq in Hne. now rewrite Hne in H.
Qed.

(** Two maps with ordered keys that agree on every lookup are the same
    sequence of pairs. *)
Lemma find_ext (m1 m2 : StdMap.t) :
  StdSet.ordered (StdMap.keys m1) = true ->
  StdSet.ordered (StdMap.keys m2) = true ->
  (forall k, StdMap.find k m1 = StdMap.find k m2) -> m1 = m2.
Proof.
  intros H1 H2 H. apply find_ext_keys; [| now apply ordered_NoDup | assumption].
  apply ordered_ext; [assumption .. |].
  intros k. rewrite <- !find_Some_In. now rewrite H.
Qed.

(** Reading after [m[k] = v]. *)
Lemma find_assign (n k : string) (v : Z) (m : StdMap.t) :
  StdMap.find n (StdMap.assign k v m) =
  if StdString.equiv n k then Some v else StdMap.find n m.
Proof.
  destruct (StdString.equiv n k) eqn:E.
  - apply equiv_eq in E. subst. apply find_assign_same.
  - apply equiv_neq in E. now apply find_assign_other.
Qed.

Lemma assign_ordered (k : string) (v : Z) (m : StdMap.t) :
  StdSet.ordered (StdMap.keys m) = true ->
  StdSet.ordered (StdMap.keys (StdMap.assign k v m)) = true.
Proof. intros H. rewrite assign_keys. now apply insert_ordered. Qed.

End Canonical.

(* ===================================================================== *)
(** ** The loop, from any state *)
(* ===================================================================== *)

Section LoopFacts.

(** The score found for [n] after the loop depends on the state only
    through the score found for [n] before it. *)
Lemma find_ingest_from_congr (n : string) (l : list (string * Z)) :
  forall st1 st2,
    StdMap.find n (scores st1) = StdMap.find n (scores st2) ->
    StdMap.find n (scores (ingest_from st1 l)) =
    StdMap.find n (scores (ingest_from st2 l)).
Proof.
  induction l as [|e l IH]; intros st1 st2 H; [assumption|].
  rewrite !ingest_from_cons. apply IH. simpl.
  rewrite !find_assign. now rewrite H.
Qed.

(** A name that occurs in the data is mapped to the score of its last
    entry, whatever the state the loop starts in. *)
Lemma find_ingest_from_last (st : State) (l1 l2 : list (string * Z))
      (n : string) (s : Z) :
  ~ In n (map fst l2) ->
  StdMap.find n (scores (ingest_from st (l1 ++ (n, s) :: l2)%list)) = Some s.
Proof.
  intros Hnin. rewrite ingest_from_app, ingest_from_cons.
  rewrite find_ingest_from_absent by assumption.
  simpl. apply find_assign_same.
Qed.

(** A name that occurs has a last entry. *)
Lemma last_entry_split (n : string) (l : list (string * Z)) :
  In n (map fst l) ->
  exists l1 s l2, l = (l1 ++ (n, s) :: l2)%list /\ ~ In n (map fst l2).
Proof.
  induction l as [|[k v] r IH]; intros Hin; [easy|].
  destruct (in_dec string_dec n (map fst r)) as [Hr|Hr].
  - destruct (IH Hr) as (l1 & s & l2 & -> & Hnin).
    now exists ((k, v) :: l1), s, l2.
  - destruct Hin as [E|Hin]; [|contradiction]. simpl in E. subst k.
    now exists [], v, r.
Qed.

Lemma scores_ordered_ingest_from (l : list (string * Z)) :
  forall st,
    StdSet.ordered (StdMap.keys (scores st)) = true ->
    StdSet.ordered (StdMap.keys (scores (ingest_from st l))) = true.
Proof.
  induction l as [|e l IH]; intros st H; [assumption|].
  rewrite ingest_from_cons. apply IH. simpl. now apply assign_ordered.
Qed.

Lemma scores_ordered_ingest (l : list (string * Z)) :
  StdSet.ordered (StdMap.keys (scores (ingest l))) = true.
Proof. unfold ingest. now apply scores_ordered_ingest_from. Qed.

End LoopFacts.

(* ===================================================================== *)
(** ** Further properties of the containers *)
(* ===================================================================== *)

(** X1.  The unique-name set depends only on which names occur in the
    input, not on their order nor on how often they occur: two inputs
    with the same names leave the same set, iterated in the same order. *)
Theorem uniqueNames_same_names (d1 d2 : list (string * Z)) :
  (forall n, In n (map fst d1) <-> In n (map fst d2)) ->
  uniqueNames (ingest d1) = uniqueNames (ingest d2).
Proof.
  intros H. apply ordered_ext; try apply ingest_ordered.
  intros n. now rewrite !ingest_unique_In.
Qed.

(** Two registrations in the other order, one of them repeated. *)
Lemma uniqueNames_same_names_witness :
  uniqueNames (ingest [("Bob", 1); ("Alice", 2); ("Bob", 3)]) =
  uniqueNames (ingest [("Alice", 7); ("Bob", 8)]).
Proof.
  apply (uniqueNames_same_names
           [("Bob", 1); ("Alice", 2); ("Bob", 3)] [("Alice", 7); ("Bob", 8)]).
  intros n. simpl. tauto.
Defined.

(** X2.  Insertions into a set commute: inserting two names in either
    order gives the same set. *)
Theorem insert_comm (a b : string) (s : StdSet.t) :
  StdSet.ordered s = true ->
  StdSet.insert a (StdSet.insert b s) = StdSet.insert b (StdSet.insert a s).
Proof.
  intros H. apply ordered_ext; try now repeat apply insert_ordered.
  intros x. rewrite !insert_In. tauto.
Qed.

Lemma insert_comm_witness :
  StdSet.ordered ["Bob"] = true
  /\ StdSet.insert "Diana" (StdSet.insert "Alice" ["Bob"]) =
     StdSet.insert "Alice" (StdSet.insert "Diana" ["Bob"]).
Proof.
  split; [reflexivity|].
  apply (insert_comm "Diana" "Alice" ["Bob"]). reflexivity.
Defined.

(** X3.  A second assignment to the same key overwrites the first: the
    map after [m[k] = v1; m[k] = v2;] is the map after [m[k] = v2;]. *)
Theorem assign_overwrite (k : string) (v1 v2 : Z) (m : StdMap.t) :
  StdMap.assign k v2 (StdMap.assign k v1 m) = StdMap.assign k v2 m.
Proof.
  induction m as [|[k' v'] r IH].
  - rewrite !assign_nil, assign_cons. now rewrite less_irrefl.
  - rewrite !assign_cons.
    destruct (StdString.less k k') eqn:Hkk'.
    + rewrite assign_cons. now rewrite less_irrefl.
    + destruct (StdString.less k' k) eqn:Hk'k; rewrite assign_cons;
        rewrite Hkk', Hk'k; [now rewrite IH | reflexivity].
Qed.

(** X4.  Assignments to different keys commute. *)
Theorem assign_comm (k1 k2 : string) (v1 v2 : Z) (m : StdMap.t) :
  k1 <> k2 ->
  StdSet.ordered (StdMap.keys m) = true ->
  StdMap.assign k1 v1 (StdMap.assign k2 v2 m) =
  StdMap.assign k2 v2 (StdMap.assign k1 v1 m).
Proof.
  intros Hne Hord. apply find_ext; try now repeat apply assign_ordered.
  intros n. rewrite !find_assign.
  destruct (StdString.equiv n k1) eqn:E1;
    destruct (StdString.equiv n k2) eqn:E2; try reflexivity.
  apply equiv_eq in E1, E2. congruence.
Qed.

Lemma assign_comm_witness :
  "Diana" <> "Alice"
  /\ StdSet.ordered (StdMap.keys [("Bob", 80)]) = true
  /\ StdMap.assign "Diana" 75 (StdMap.assign "Alice" 95 [("Bob", 80)]) =
     StdMap.assign "Alice" 95 (StdMap.assign "Diana" 75 [("Bob", 80)]).
Proof.
  assert (Hne : "Diana" <> "Alice") by discriminate.
  split; [exact Hne|]. split; [reflexivity|].
  apply (assign_comm "Diana" "Alice" 75 95 [("Bob", 80)] Hne). reflexivity.
Defined.

(** X5.  Reading after writing: after [m[k] = v] the key [k] is found
    with value [v] and every other key is found as before. *)
Theorem find_after_assign (n k : string) (v : Z) (m : StdMap.t) :
  StdMap.find n (StdMap.assign k v m) =
  if String.eqb n k then Some v else StdMap.find n m.
Proof.
  rewrite find_assign. destruct (String.eqb_spec n k) as [->|Hne].
  - now rewrite equiv_refl.
  - apply equiv_neq in Hne. now rewrite Hne.
Qed.

(** X6.  Membership after insertion: after [s.insert(x)] the name [x] is
    a member and the membership of every other name is as before. *)
Theorem mem_after_insert (y x : string) (s : StdSet.t) :
  StdSet.mem y (StdSet.insert x s) = String.eqb y x || StdSet.mem y s.
Proof.
  apply eq_true_iff_eq.
  rewrite mem_In, insert_In, orb_true_iff, String.eqb_eq, mem_In. tauto.
Qed.

(** X7.  The size of a map after [m[k] = v]: unchanged when [k] was
    already mapped, one more when it was not. *)
Theorem assign_size (k : string) (v : Z) (m : StdMap.t) :
  StdSet.ordered (StdMap.keys m) = true ->
  StdMap.size (StdMap.assign k v m) =
  match StdMap.find k m with
  | Some _ => StdMap.size m
  | None => S (StdMap.size m)
  end.
Proof.
  intros Hord.
  assert (Hlen : forall m', StdMap.size m' = StdSet.size (StdMap.keys m')).
  { intros m'. unfold StdMap.size, StdSet.size, StdMap.keys.
    now rewrite length_map. }
  rewrite !Hlen, assign_keys.
  destruct (StdMap.find k m) eqn:Hf.
  - rewrite insert_present; [reflexivity | assumption |].
    apply find_Some_In. congruence.
  - apply insert_absent_size. now apply find_None.
Qed.

Lemma assign_size_witness :
  StdSet.ordered (StdMap.keys [("Alice", 95); ("Bob", 80)]) = true
  /\ StdMap.size (StdMap.assign "Alice" 97 [("Alice", 95); ("Bob", 80)]) = 2%nat
  /\ StdMap.size (StdMap.assign "Charlie" 100 [("Alice", 95); ("Bob", 80)]) = 3%nat.
Proof.
  assert (H : StdSet.ordered (StdMap.keys [("Alice", 95); ("Bob", 80)]) = true)
    by reflexivity.
  split; [exact H|]. split.
  - exact (assign_size "Alice" 97 [("Alice", 95); ("Bob", 80)] H).
  - exact (assign_size "Charlie" 100 [("Alice", 95); ("Bob", 80)] H).
Defined.

(* ===================================================================== *)
(** ** Further properties of the run *)
(* ===================================================================== *)

Section RunFacts.

Lemma nodup_length_le (l : list string) :
  (List.length (nodup string_dec l) <= List.length l)%nat.
Proof.
  induction l as [|a l IH]; simpl; [lia|].
  destruct (in_dec string_dec a l); simpl; lia.
Qed.

Lemma nodup_length_NoDup (l : list string) :
  List.length (nodup string_dec l) = List.length l <-> NoDup l.
Proof.
  split.
  - induction l as [|a l IH]; simpl; [constructor|].
    pose proof (nodup_length_le l) as Hle.
    destruct (in_dec string_dec a l) as [Hin|Hnin]; simpl; intros H.
    + lia.
    + constructor; [assumption|]. apply IH. lia.
  - intros H. now rewrite nodup_fixed_point.
Qed.

Lemma insert_size_bounds (x : string) (s : StdSet.t) :
  (StdSet.size s <= StdSet.size (StdSet.insert x s) <= S (StdSet.size s))%nat.
Proof.
  unfold StdSet.size. induction s as [|y r IH]; simpl; [lia|].
  destruct (StdString.less x y); simpl; [lia|].
  destruct (StdString.less y x); simpl; lia.
Qed.

Lemma keys_ingest_from_In (n : string) (l : list (string * Z)) :
  forall st,
    In n (StdMap.keys (scores (ingest_from st l))) <->
    In n (StdMap.keys (scores st)) \/ In n (map fst l).
Proof.
  induction l as [|e l IH]; intros st.
  - simpl. tauto.
  - rewrite ingest_from_cons, IH. simpl. rewrite assign_keys, insert_In.
    split; intros H; intuition auto.
Qed.

Lemma size_ingest_from_le (l : list (string * Z)) :
  forall st,
    (StdSet.size (uniqueNames st)
     <= StdSet.size (uniqueNames (ingest_from st l)))%nat.
Proof.
  induction l as [|e l IH]; intros st; [simpl; lia|].
  rewrite ingest_from_cons.
  specialize (IH (ingest_step st e)). simpl in IH.
  pose proof (insert_size_bounds (fst e) (uniqueNames st)). lia.
Qed.

Lemma to_int_not_nil (z : Z) :
  Z.to_int z <> Decimal.Pos Decimal.Nil /\ Z.to_int z <> Decimal.Neg Decimal.Nil.
Proof.
  destruct z as [|p|p]; simpl; split; try discriminate;
    intros [= H]; now apply DecimalPos.Unsigned.to_uint_nonnil in H.
Qed.

End RunFacts.

(** X8.  The log and the set hold the same names; the set is never
    larger than the log, and it is as large exactly when no name was
    registered twice. *)
Theorem log_and_set_agree (data : list (string * Z)) :
  (forall n, In n (participants (ingest data)) <->
             In n (uniqueNames (ingest data)))
  /\ (StdSet.size (uniqueNames (ingest data))
      <= List.length (participants (ingest data)))%nat
  /\ (StdSet.size (uniqueNames (ingest data)) =
      List.length (participants (ingest data))
      <-> NoDup (map fst data)).
Proof.
  assert (Hp : participants (ingest data) = map fst data).
  { unfold ingest. now rewrite participants_ingest_from. }
  rewrite Hp, ingest_unique_size. unfold distinct_count.
  split; [|split].
  - intros n. now rewrite ingest_unique_In.
  - apply nodup_length_le.
  - apply nodup_length_NoDup.
Qed.

(** X9.  Running the loop a second time over the same data changes
    neither the set nor the mapping. *)
Theorem ingest_twice (data : list (string * Z)) :
  uniqueNames (ingest (data ++ data)%list) = uniqueNames (ingest data)
  /\ scores (ingest (data ++ data)%list) = scores (ingest data).
Proof.
  split.
  - apply ordered_ext; try apply ingest_ordered.
    intros n. rewrite !ingest_unique_In, map_app, in_app_iff. tauto.
  - apply find_ext; try apply scores_ordered_ingest.
    intros k. destruct (in_dec string_dec k (map fst data)) as [Hin|Hnin].
    + destruct (last_entry_split k data Hin) as (l1 & s & l2 & E & Hl2).
      unfold ingest. rewrite E at 2 3. rewrite app_assoc.
      now rewrite !find_ingest_from_last.
    + transitivity (@None Z); [|symmetry]; apply find_None;
        rewrite ingest_keys, ingest_unique_In; [|assumption].
      rewrite map_app, in_app_iff. tauto.
Qed.

(** X10.  An entry whose name occurs again later has no influence on the
    final set and mapping: dropping it from the input changes neither. *)
Theorem overwritten_entry_irrelevant
        (l1 l2 : list (string * Z)) (n : string) (s : Z) :
  In n (map fst l2) ->
  uniqueNames (ingest (l1 ++ (n, s) :: l2)%list) =
    uniqueNames (ingest (l1 ++ l2)%list)
  /\ scores (ingest (l1 ++ (n, s) :: l2)%list) = scores (ingest (l1 ++ l2)%list).
Proof.
  intros Hin. split.
  - apply ordered_ext; try apply ingest_ordered.
    intros x. rewrite !ingest_unique_In, !map_app, !in_app_iff. simpl.
    split; [|tauto]. intros [H|[H|H]]; auto. subst x. auto.
  - apply find_ext; try apply scores_ordered_ingest.
    intros k. unfold ingest. destruct (string_dec k n) as [->|Hne].
    + destruct (last_entry_split n l2 Hin) as (a & s' & b & -> & Hb).
      rewrite (app_assoc l1 a).
      change (l1 ++ (n, s) :: a ++ (n, s') :: b)%list
        with (l1 ++ ((n, s) :: a) ++ (n, s') :: b)%list.
      rewrite (app_assoc l1 ((n, s) :: a)).
      now rewrite !find_ingest_from_last.
    + rewrite !ingest_from_app, ingest_from_cons.
      apply find_ingest_from_congr. simpl. now apply find_assign_other.
Qed.

(** The first entry of Alice in [incomingData] is overwritten. *)
Lemma overwritten_entry_irrelevant_witness :
  In "Alice" (map fst [("Bob", 80); ("Alice", 97); ("Charlie", 100); ("Diana", 75)])
  /\ scores (ingest incomingData) =
     scores (ingest [("Bob", 80); ("Alice", 97); ("Charlie", 100); ("Diana", 75)]).
Proof.
  assert (H : In "Alice"
                 (map fst [("Bob", 80); ("Alice", 97); ("Charlie", 100);
                           ("Diana", 75)]))
    by (simpl; tauto).
  split; [exact H|].
  exact (proj2 (overwritten_entry_irrelevant
                  [] [("Bob", 80); ("Alice", 97); ("Charlie", 100); ("Diana", 75)]
                  "Alice" 95 H)).
Defined.

Section UniqueEntries.

(** When no name is registered twice, every entry is found as it is. *)
Lemma find_unique_entry (d : list (string * Z)) (n : string) (s : Z) :
  NoDup (map fst d) -> In (n, s) d ->
  StdMap.find n (scores (ingest d)) = Some s.
Proof.
  intros Hnd Hin. apply in_split in Hin. destruct Hin as (l1 & l2 & ->).
  apply ingest_find_last.
  rewrite map_app in Hnd. simpl in Hnd. apply NoDup_remove_2 in Hnd.
  intros H. apply Hnd. apply in_or_app. now right.
Qed.

End UniqueEntries.

(** X11.  When no name is registered twice, the order of the entries
    does not matter for the mapping: a permutation of the input leaves
    the same mapping. *)
Theorem scores_permutation (d1 d2 : list (string * Z)) :
  NoDup (map fst d1) ->
  Permutation d1 d2 ->
  scores (ingest d1) = scores (ingest d2).
Proof.
  intros Hnd Hperm.
  assert (Hnames : Permutation (map fst d1) (map fst d2))
    by now apply Permutation_map.
  assert (Hnd2 : NoDup (map fst d2)) by now apply Permutation_NoDup with (map fst d1).
  apply find_ext; try apply scores_ordered_ingest.
  intros k. destruct (in_dec string_dec k (map fst d1)) as [Hin|Hnin].
  - apply in_map_iff in Hin. destruct Hin as ([k' s] & E & Hin).
    simpl in E. subst k'.
    rewrite (find_unique_entry d1 k s Hnd Hin).
    symmetry. apply find_unique_entry; [assumption|].
    now apply Permutation_in with d1.
  - transitivity (@None Z); [|symmetry]; apply find_None;
      rewrite ingest_keys, ingest_unique_In; [assumption|].
    intros H. apply Hnin. apply Permutation_in with (map fst d2);
      [now apply Permutation_sym | assumption].
Qed.

Lemma scores_permutation_witness :
  scores (ingest [("Diana", 75); ("Bob", 80)]) =
  scores (ingest [("Bob", 80); ("Diana", 75)]).
Proof.
  apply (scores_permutation [("Diana", 75); ("Bob", 80)]
                            [("Bob", 80); ("Diana", 75)]).
  - simpl. constructor; [simpl; intros [H|[]]; discriminate|].
    constructor; [simpl; tauto | constructor].
  - apply perm_swap.
Defined.

(** X12.  The decimal text printed for a score determines the score:
    two scores are printed alike only when they are equal. *)
Theorem of_int_injective (a b : Z) :
  StdString.of_int a = StdString.of_int b <-> a = b.
Proof.
  split; [|now intros ->]. unfold StdString.of_int. intros H.
  apply (f_equal NilZero.int_of_string) in H.
  rewrite !NilZero.isi in H by apply to_int_not_nil.
  injection H as H. now apply DecimalZ.to_int_inj.
Qed.

(** X13.  For names that hold no new-line the output has eight lines
    besides the score lines (three headers, two lines of names, two
    empty lines and the empty text after the last line end), and one
    score line per distinct name. *)
Theorem report_line_count (data : list (string * Z)) :
  forallb (fun e => one_line (fst e)) data = true ->
  List.length (lines (stdout (run data))) =
  (8 + distinct_count (map fst data))%nat.
Proof.
  intros Hdata. apply forallb_names in Hdata.
  assert (Hu : forallb one_line (uniqueNames (ingest data)) = true).
  { apply forallb_forall. intros n Hn. apply ingest_unique_In in Hn.
    revert n Hn. now apply forallb_forall. }
  change (stdout (run data)) with (report EmptyString (ingest data)).
  rewrite lines_report.
  - rewrite <- ingest_unique_size. unfold StdSet.size.
    rewrite <- ingest_keys. unfold StdMap.keys.
    rewrite !length_app, !length_map. simpl. lia.
  - unfold ingest. rewrite participants_ingest_from. exact Hdata.
  - exact Hu.
  - now rewrite ingest_keys.
Qed.

Lemma report_line_count_witness :
  forallb (fun e => one_line (fst e)) incomingData = true
  /\ List.length (lines (stdout (run incomingData))) = 12%nat.
Proof.
  assert (H : forallb (fun e => one_line (fst e)) incomingData = true)
    by reflexivity.
  split; [exact H|]. exact (report_line_count incomingData H).
Defined.

(** X14.  The loop only adds: started in any state, it keeps every
    element of the set and every key of the mapping, never shrinks the
    set, appends the names of its entries to the log as it was, and
    leaves alone the score of every name that has no entry. *)
Theorem ingest_only_adds (st : State) (l : list (string * Z)) :
  (forall n, In n (uniqueNames st) -> In n (uniqueNames (ingest_from st l)))
  /\ (forall n, In n (StdMap.keys (scores st)) ->
                In n (StdMap.keys (scores (ingest_from st l))))
  /\ (StdSet.size (uniqueNames st)
      <= StdSet.size (uniqueNames (ingest_from st l)))%nat
  /\ participants (ingest_from st l) = (participants st ++ map fst l)%list
  /\ (forall n, ~ In n (map fst l) ->
                StdMap.find n (scores (ingest_from st l)) =
                StdMap.find n (scores st)).
Proof.
  repeat split.
  - intros n H. apply unique_ingest_from. now left.
  - intros n H. apply keys_ingest_from_In. now left.
  - apply size_ingest_from_le.
  - apply participants_ingest_from.
  - intros n H. now apply find_ingest_from_absent.
Qed.

(** X15.  The loop keeps the containers consistent: started in a state
    where the set is ordered, the keys of the mapping are the elements of
    the set and the set holds the names of the log, it ends in such a
    state. *)
Theorem ingest_keeps_consistency (st : State) (l : list (string * Z)) :
  StdSet.ordered (uniqueNames st) = true ->
  StdMap.keys (scores st) = uniqueNames st ->
  (forall n, In n (participants st) <-> In n (uniqueNames st)) ->
  StdSet.ordered (uniqueNames (ingest_from st l)) = true
  /\ StdMap.keys (scores (ingest_from st l)) = uniqueNames (ingest_from st l)
  /\ (forall n, In n (participants (ingest_from st l)) <->
                In n (uniqueNames (ingest_from st l))).
Proof.
  intros Hord Hkeys Hlog. split; [|split].
  - now apply ordered_ingest_from.
  - now apply keys_ingest_from.
  - intros n. rewrite participants_ingest_from, in_app_iff, unique_ingest_from.
    now rewrite Hlog.
Qed.

Lemma ingest_keeps_consistency_witness :
  StdSet.ordered
    (uniqueNames (ingest_from (mkState ["Bob"; "Bob"] ["Bob"] [("Bob", 80)])
                              [("Alice", 97)])) = true
  /\ StdMap.keys
       (scores (ingest_from (mkState ["Bob"; "Bob"] ["Bob"] [("Bob", 80)])
                            [("Alice", 97)])) =
     uniqueNames (ingest_from (mkState ["Bob"; "Bob"] ["Bob"] [("Bob", 80)])
                              [("Alice", 97)]).
Proof.
  assert (H : forall n, In n ["Bob"; "Bob"] <-> In n ["Bob"])
    by (intros n; simpl; tauto).
  pose proof (ingest_keeps_consistency
                (mkState ["Bob"; "Bob"] ["Bob"] [("Bob", 80)]) [("Alice", 97)]
                eq_refl eq_refl H) as (H1 & H2 & _).
  split; [exact H1 | exact H2].
Defined.

(** X16.  The mapping is determined by its lookups: two inputs after
    which every name is found with the same score (or not found) leave
    the same sequence of pairs, hence the same score lines. *)
Theorem scores_determined_by_lookups (d1 d2 : list (string * Z)) :
  (forall k, StdMap.find k (scores (ingest d1)) =
             StdMap.find k (scores (ingest d2))) ->
  scores (ingest d1) = scores (ingest d2)
  /\ print_scores EmptyString (scores (ingest d1)) =
     print_scores EmptyString (scores (ingest d2)).
Proof.
  intros H.
  assert (E : scores (ingest d1) = scores (ingest d2))
    by (apply find_ext; try apply scores_ordered_ingest; assumption).
  split; [exact E | now rewrite E].
Qed.

Lemma scores_determined_by_lookups_witness :
  scores (ingest [("Bob", 1); ("Alice", 2); ("Bob", 3)]) =
  scores (ingest [("Alice", 2); ("Bob", 3)]).
Proof.
  refine (proj1 (scores_determined_by_lookups
                   [("Bob", 1); ("Alice", 2); ("Bob", 3)]
                   [("Alice", 2); ("Bob", 3)] _)).
  intros k. reflexivity.
Defined.
